(** * Tic Tac Toe: the board evaluator and the click/reset state machine

    A shallow embedding of [src/tic_tac_toe_frontend/src/App.js]:
    [calculateWinner], [handleSquareClick] and [handleReset], with the
    component's [useState] cells gathered in one record.  Every handler
    runs to completion on the values of the current render, and the
    setters it calls give the values of the next one, so a handler is a
    function from state to state.  The theme cell is written by
    [toggleTheme] only and read by no game handler; it is left out of
    [GameState] and modelled beside it, with the status line and the
    board rendering, further down. *)

From stdpp Require Import base list strings pretty.

Open Scope string_scope.
Open Scope list_scope.

(** ** JavaScript values that occur in the game logic *)

(** A board cell is one of the strings [""], ["X"], ["O"]; reading an
    array out of range gives [undefined], and [winner] is a string or
    [null].  Both are [option string], where [None] is the one non-string
    value that can occur at that place. *)
Definition jsval := option string.

(** Truthiness: [undefined], [null] and the empty string are falsy. *)
Definition truthy (v : jsval) : bool :=
  match v with
  | Some s => negb (String.eqb s "")
  | None => false
  end.

(** [v === w] on these values. *)
Definition strict_eq (v w : jsval) : bool :=
  match v, w with
  | Some s, Some t => String.eqb s t
  | None, None => true
  | _, _ => false
  end.

(** ** calculateWinner *)

Record WinResult := mkWinResult {
  res_winner : jsval;
  res_line : list nat
}.

(** The table of winning lines: rows, columns, diagonals. *)
Definition lines : list (list nat) :=
  [ [0; 1; 2];
    [3; 4; 5];
    [6; 7; 8];
    [0; 3; 6];
    [1; 4; 7];
    [2; 5; 8];
    [0; 4; 8];
    [2; 4; 6] ].

(** The test of the [if] in the loop body, for [const [a, b, c] = line]. *)
Definition line_wins (squares : list string) (a b c : nat) : bool :=
  truthy (squares !! a)
  && strict_eq (squares !! a) (squares !! b)
  && strict_eq (squares !! a) (squares !! c).

(** The [for (let line of lines)] loop, over the lines still to visit.
    A line with fewer than three entries would bind [undefined] indices,
    whose cells are [undefined] and falsy: the loop goes on. *)
Fixpoint scan_lines (squares : list string) (ls : list (list nat)) : WinResult :=
  match ls with
  | [] => mkWinResult None []
  | line :: rest =>
      match line with
      | a :: b :: c :: _ =>
          if line_wins squares a b c
          then mkWinResult (squares !! a) line
          else scan_lines squares rest
      | _ => scan_lines squares rest
      end
  end.

Definition calculateWinner (squares : list string) : WinResult :=
  scan_lines squares lines.

(** ** The component state *)

Record GameState := mkGameState {
  board : list string;
  isXNext : bool;
  winner : jsval;
  winningLine : list nat;
  isTie : bool;
  lastMove : option nat
}.

(** The values given to [useState]. *)
Definition initialState : GameState :=
  mkGameState (replicate 9 "") true None [] false None.

(** [nextBoard.every((cell) => cell !== "")] *)
Definition every_filled (b : list string) : bool :=
  forallb (fun cell => negb (String.eqb cell "")) b.

(** The early return of [handleSquareClick]:
    [board[idx] !== "" || winner]. *)
Definition click_ignored (idx : nat) (st : GameState) : bool :=
  negb (strict_eq (board st !! idx) (Some "")) || truthy (winner st).

(** Past the early return [board[idx]] is [""], so [idx] is within the
    array and the assignment [nextBoard[idx] = ...] overwrites a cell of
    the copy; it never extends it.  The six setters give the next state;
    the tie branch calls no [setWinningLine], so that cell keeps its
    value. *)
Definition handleSquareClick (idx : nat) (st : GameState) : GameState :=
  if click_ignored idx st then st
  else
    let nextBoard := <[idx := if isXNext st then "X" else "O"]> (board st) in
    let res := calculateWinner nextBoard in
    if truthy (res_winner res) then
      mkGameState nextBoard (negb (isXNext st))
                  (res_winner res) (res_line res) false (Some idx)
    else if every_filled nextBoard then
      mkGameState nextBoard (negb (isXNext st))
                  None (winningLine st) true (Some idx)
    else
      mkGameState nextBoard (negb (isXNext st))
                  None [] false (Some idx).

Definition handleReset (st : GameState) : GameState :=
  mkGameState (replicate 9 "") true None [] false None.

(** ** What the rendering reads off the state *)

(** The mark the next accepted click places ([isXNext ? "X" : "O"]). *)
Definition currentTurn (st : GameState) : string :=
  if isXNext st then "X" else "O".

Definition other_mark (m : string) : string :=
  if String.eqb m "X" then "O" else "X".

Inductive Outcome :=
  | InProgress
  | Win (mark : string) (line : list nat)
  | Tie.

(** The case split of the status line: [if (winner) ... else if (isTie)
    ... else ...]. *)
Definition outcome (st : GameState) : Outcome :=
  if truthy (winner st) then Win (default "" (winner st)) (winningLine st)
  else if isTie st then Tie
  else InProgress.

(** The same case split on a fresh board: the three branches that end
    [handleSquareClick], without the cells they write. *)
Definition evaluate (b : list string) : Outcome :=
  let res := calculateWinner b in
  if truthy (res_winner res) then Win (default "" (res_winner res)) (res_line res)
  else if every_filled b then Tie
  else InProgress.

(** ** Events and reachable states *)

Inductive Event :=
  | Click (idx : nat)
  | Reset.

Definition step (st : GameState) (e : Event) : GameState :=
  match e with
  | Click idx => handleSquareClick idx st
  | Reset => handleReset st
  end.

Definition run (es : list Event) (st : GameState) : GameState :=
  fold_left step es st.

Inductive reachable : GameState → Prop :=
  | reach_init : reachable initialState
  | reach_step st e : reachable st → reachable (step st e).

(** ** Properties in the specification's words *)

(** A triple matches when its three cells hold the same non-empty mark. *)
Definition triple_matches (squares : list string) (l : list nat) (m : string) : Prop :=
  ∃ a b c, l = [a; b; c] ∧ m ≠ "" ∧
    squares !! a = Some m ∧ squares !! b = Some m ∧ squares !! c = Some m.

Definition no_triple_matches (squares : list string) : Prop :=
  ∀ l m, l ∈ lines → ¬ triple_matches squares l m.

(** The rule for the turn with the game's end treated apart: an accepted
    click (cell empty and game in progress before it) hands the turn to
    the other mark when the game stays in progress, and leaves the turn
    where it was when the click ends the game. *)
Definition turn_kept_at_game_end (st : GameState) (idx : nat) : Prop :=
  board st !! idx = Some "" →
  outcome st = InProgress →
  (outcome (handleSquareClick idx st) = InProgress →
     currentTurn (handleSquareClick idx st) = other_mark (currentTurn st)) ∧
  (outcome (handleSquareClick idx st) ≠ InProgress →
     currentTurn (handleSquareClick idx st) = currentTurn st).

(** ** The invariant of the reachable states *)

Definition is_cell (c : string) : Prop := c = "" ∨ c = "X" ∨ c = "O".

Record consistent (st : GameState) : Prop := mkConsistent {
  inv_length : length (board st) = 9;
  inv_cells : Forall is_cell (board st);
  inv_winner : winner st = res_winner (calculateWinner (board st));
  inv_line : winningLine st = res_line (calculateWinner (board st));
  inv_tie : isTie st =
            negb (truthy (res_winner (calculateWinner (board st))))
            && every_filled (board st)
}.

(** ** The status line and the board rendering *)

(** The [statusMsg] of the header. *)
Definition statusMsg (st : GameState) : string :=
  if truthy (winner st) then "Winner: " +:+ default "" (winner st)
  else if isTie st then "It's a tie!"
  else "Next: " +:+ (if isXNext st then "X" else "O").

(** [winningLine.includes(idx)] *)
Definition isWinningSquare (st : GameState) (idx : nat) : bool :=
  existsb (Nat.eqb idx) (winningLine st).

(** [lastMove === idx], where [lastMove] is [null] or an index. *)
Definition isRecent (st : GameState) (idx : nat) : bool :=
  match lastMove st with
  | Some i => Nat.eqb i idx
  | None => false
  end.

(** The props of one [<button>] of the board; its child is the cell. *)
Record Square := mkSquare {
  sq_key : nat;
  sq_className : string;
  sq_onClick : Event;
  sq_ariaLabel : string;
  sq_disabled : bool;
  sq_tabIndex : nat;
  sq_text : jsval
}.

(** The body of the inner loop of [renderBoard], at row [r], column [c]. *)
Definition renderSquare (st : GameState) (r c : nat) : Square :=
  let idx := r * 3 + c in
  mkSquare idx
    ("ttt-square" +:+ (if isWinningSquare st idx then " winner" else "")
                  +:+ (if isRecent st idx then " last-move" else ""))
    (Click idx)
    ("Place "
       +:+ (if isXNext st && negb (truthy (winner st)) && negb (isTie st)
            then "X" else "O")
       +:+ " in cell " +:+ pretty (r + 1) +:+ "," +:+ pretty (c + 1)
       +:+ (if truthy (board st !! idx)
            then ": already occupied by " +:+ default "" (board st !! idx)
            else ""))
    (truthy (board st !! idx) || truthy (winner st) || isTie st)
    0
    (board st !! idx).

(** One [<div className="ttt-row">] with its key and its buttons. *)
Record Row := mkRow {
  row_key : nat;
  row_cells : list Square
}.

(** The two nested [for] loops, [r] and [c] from 0 to 2. *)
Definition renderBoard (st : GameState) : list Row :=
  map (λ r, mkRow r (map (λ c, renderSquare st r c) (seq 0 3))) (seq 0 3).

(** All buttons of the board in document order. *)
Definition board_squares (st : GameState) : list Square :=
  concat (map row_cells (renderBoard st)).

(** ** The theme *)

(** The value [toggleTheme] passes to [setTheme]. *)
Definition toggleTheme (theme : string) : string :=
  if String.eqb theme "light" then "dark" else "light".

(** The whole component: the game cells, the theme cell, and the
    [data-theme] attribute of the document element, which the effect
    writes. *)
Record AppState := mkAppState {
  game : GameState;
  theme : string;
  dataTheme : jsval
}.

(** [useEffect(..., [theme])] after a render: the attribute is written
    when the dependency differs from the one of the render before. *)
Definition themeEffect (prev next : string) (attr : jsval) : jsval :=
  if String.eqb prev next then attr else Some next.

(** The component once mounted: the effect has run on the first render. *)
Definition initialApp : AppState :=
  mkAppState initialState "light" (Some "light").

Inductive AppEvent :=
  | GameEvent (e : Event)
  | ToggleTheme.

(** One event: its handler, the render that follows, then the effect. *)
Definition app_step (s : AppState) (e : AppEvent) : AppState :=
  match e with
  | GameEvent ge =>
      mkAppState (step (game s) ge) (theme s)
                 (themeEffect (theme s) (theme s) (dataTheme s))
  | ToggleTheme =>
      mkAppState (game s) (toggleTheme (theme s))
                 (themeEffect (theme s) (toggleTheme (theme s)) (dataTheme s))
  end.

Definition app_run (es : list AppEvent) (s : AppState) : AppState :=
  fold_left app_step es s.

Inductive app_reachable : AppState → Prop :=
  | app_reach_init : app_reachable initialApp
  | app_reach_step s e : app_reachable s → app_reachable (app_step s e).

(** The game events of a history, and the number of its theme toggles. *)
Fixpoint game_events (es : list AppEvent) : list Event :=
  match es with
  | [] => []
  | GameEvent ge :: rest => ge :: game_events rest
  | ToggleTheme :: rest => game_events rest
  end.

Fixpoint toggles (es : list AppEvent) : nat :=
  match es with
  | [] => 0
  | GameEvent _ :: rest => toggles rest
  | ToggleTheme :: rest => S (toggles rest)
  end.

(** ** Counting marks, and the invariant of the moves *)

Definition count_mark (m : string) (b : list string) : nat :=
  length (filter (λ c, c = m) b).

(** What the reachable states keep about turn, last move and lines, on
    top of [consistent]. *)
Record played (st : GameState) : Prop := mkPlayed {
  inv_count : count_mark "X" (board st)
              = count_mark "O" (board st) + (if isXNext st then 0 else 1);
  inv_last_none : lastMove st = None → board st = replicate 9 "";
  inv_last_some : ∀ i, lastMove st = Some i →
                  board st !! i = Some (if isXNext st then "O" else "X");
  inv_triples : ∀ l m, l ∈ lines → triple_matches (board st) l m →
                ∃ i, lastMove st = Some i ∧ i ∈ l
}.

(** ** Boards and states used as examples *)

(** A board no legal game produces: the top and the middle row are both
    complete.  The top row comes first in the table. *)
Definition two_rows_board : list string :=
  ["X"; "X"; "X"; "O"; "O"; "O"; ""; ""; ""].

(** X holds 0 and 1, O holds 3 and 4, X is to move. *)
Definition x_about_to_win : GameState :=
  run [Click 0; Click 3; Click 1; Click 4] initialState.

(** Eight moves of a drawn game; only cell 7 is open and X is to move. *)
Definition last_cell_open : GameState :=
  run [Click 0; Click 1; Click 2; Click 4; Click 3; Click 6; Click 5; Click 8]
      initialState.

(** X has completed the left column; O holds 1 and 4. *)
Definition x_has_won : GameState :=
  run [Click 0; Click 1; Click 3; Click 4; Click 6] initialState.

(** A drawn game: nine moves, no complete line. *)
Definition drawn_game : GameState :=
  run [Click 0; Click 1; Click 2; Click 4; Click 3; Click 6; Click 5; Click 8;
       Click 7] initialState.

(** ** Values *)

Lemma truthy_true v : truthy v = true ↔ ∃ s, v = Some s ∧ s ≠ "".
Proof.
  destruct v as [s|]; simpl.
  - rewrite negb_true_iff. split.
    + intros H. exists s. split; [done|]. by apply String.eqb_neq.
    + intros (t & [= <-] & Hne). by apply String.eqb_neq.
  - split; [done|]. by intros (s & ? & _).
Qed.

Lemma truthy_false v : truthy v = false ↔ v = None ∨ v = Some "".
Proof.
  destruct v as [s|]; simpl.
  - rewrite negb_false_iff, String.eqb_eq. split.
    + intros ->. by right.
    + by intros [?|[= ->]].
  - split; [by left|done].
Qed.

Lemma strict_eq_true v w : strict_eq v w = true ↔ v = w.
Proof.
  destruct v as [s|], w as [t|]; simpl; try by split.
  rewrite String.eqb_eq. naive_solver.
Qed.

Lemma strict_eq_refl v : strict_eq v v = true.
Proof. by apply strict_eq_true. Qed.

Lemma other_mark_currentTurn st :
  other_mark (currentTurn st) = if isXNext st then "O" else "X".
Proof. unfold currentTurn. by destruct (isXNext st). Qed.

(** ** The scan *)

Lemma line_wins_true squares a b c :
  line_wins squares a b c = true ↔
  ∃ m, m ≠ "" ∧ squares !! a = Some m ∧ squares !! b = Some m ∧ squares !! c = Some m.
Proof.
  unfold line_wins. rewrite !andb_true_iff, truthy_true, !strict_eq_true. split.
  - intros [[(m & Ha & Hm) Hb] Hc]. exists m. rewrite <- Hb, <- Hc. done.
  - intros (m & Hm & Ha & Hb & Hc). rewrite Ha, Hb, Hc. eauto.
Qed.

Lemma line_wins_matches squares a b c :
  line_wins squares a b c = true ↔ ∃ m, triple_matches squares [a; b; c] m.
Proof.
  rewrite line_wins_true. split.
  - intros (m & ?). exists m, a, b, c. done.
  - intros (m & a' & b' & c' & [= -> -> ->] & ?). by exists m.
Qed.

(** What the loop returns over any table of triples: the first line of
    the table that matches, with the mark on it, and the null result
    when none does. *)
Lemma scan_lines_first squares ls :
  Forall (λ l, length l = 3) ls →
  (∃ pre l m post,
      ls = pre ++ l :: post ∧ triple_matches squares l m ∧
      (∀ l' m', l' ∈ pre → ¬ triple_matches squares l' m') ∧
      scan_lines squares ls = mkWinResult (Some m) l)
  ∨ ((∀ l m, l ∈ ls → ¬ triple_matches squares l m) ∧
     scan_lines squares ls = mkWinResult None []).
Proof.
  induction 1 as [|l ls Hlen _ IH].
  - right. split; [|done]. intros l m Hl. by apply elem_of_nil in Hl.
  - destruct l as [|a [|b [|c [|? ?]]]]; try done. simpl.
    destruct (line_wins squares a b c) eqn:Hw.
    + left. apply line_wins_true in Hw as Hw'. destruct Hw' as (m & Hm & Ha & Hb & Hc).
      exists [], [a; b; c], m, ls. rewrite Ha. split_and!; [done| |by intros ?? ?%elem_of_nil|done].
      by exists a, b, c.
    + assert (∀ m, ¬ triple_matches squares [a; b; c] m) as Hno.
      { intros m Hm. assert (line_wins squares a b c = true); [|congruence].
        apply line_wins_matches. eauto. }
      destruct IH as [(pre & l & m & post & -> & Hm & Hpre & Hscan)|[Hnone Hscan]].
      * left. exists ([a; b; c] :: pre), l, m, post. split_and!; [done|done| |done].
        intros l' m' [->|?]%elem_of_cons; eauto.
      * right. split; [|done]. intros l m [->|?]%elem_of_cons; eauto.
Qed.

Lemma lines_triples : Forall (λ l, length l = 3) lines.
Proof. unfold lines. repeat constructor. Qed.

Lemma calculateWinner_none squares :
  no_triple_matches squares → calculateWinner squares = mkWinResult None [].
Proof.
  intros Hno. destruct (scan_lines_first squares lines lines_triples)
    as [(pre & l & m & post & Heq & Hm & _)|[_ ?]]; [|done].
  exfalso. apply (Hno l m); [|done]. rewrite Heq. apply elem_of_app. right. apply list_elem_of_here.
Qed.

(** The result is a win with a truthy mark or the null result. *)
Lemma calculateWinner_shape squares :
  (∃ m l, m ≠ "" ∧ calculateWinner squares = mkWinResult (Some m) l ∧ l ≠ [])
  ∨ calculateWinner squares = mkWinResult None [].
Proof.
  destruct (scan_lines_first squares lines lines_triples)
    as [(pre & l & m & post & _ & (a & b & c & -> & Hm & _) & _ & Hs)|[_ ?]]; [left|by right].
  by exists m, [a; b; c].
Qed.

Lemma calculateWinner_falsy squares :
  truthy (res_winner (calculateWinner squares)) = false →
  calculateWinner squares = mkWinResult None [].
Proof.
  destruct (calculateWinner_shape squares) as [(m & l & Hm & -> & _) | ->]; [|done].
  simpl. intros H%negb_false_iff%String.eqb_eq. done.
Qed.

(** [C1] On every board where at least one of the eight winning triples
    holds three equal non-empty marks, [calculateWinner] returns the
    first triple of the table that matches, in the table's order, as the
    line, and the mark on that triple as the winner; no earlier triple of
    the table matches.  This covers boards on which several triples
    match at once. *)
Theorem calculateWinner_first_matching_triple squares :
  (∃ l m, l ∈ lines ∧ triple_matches squares l m) →
  ∃ pre l m post,
    lines = pre ++ l :: post ∧
    triple_matches squares l m ∧
    (∀ l' m', l' ∈ pre → ¬ triple_matches squares l' m') ∧
    calculateWinner squares = mkWinResult (Some m) l.
Proof.
  intros (l & m & Hl & Hm).
  destruct (scan_lines_first squares lines lines_triples) as [?|[Hno _]]; [done|].
  by destruct (Hno l m).
Qed.

Lemma calculateWinner_first_matching_triple_witness :
  ∃ pre l m post,
    lines = pre ++ l :: post ∧
    triple_matches two_rows_board l m ∧
    (∀ l' m', l' ∈ pre → ¬ triple_matches two_rows_board l' m') ∧
    calculateWinner two_rows_board = mkWinResult (Some m) l.
Proof.
  apply (calculateWinner_first_matching_triple two_rows_board).
  exists [3; 4; 5], "O". split.
  - unfold lines. apply list_elem_of_further, list_elem_of_here.
  - exists 3, 4, 5. split_and!; [reflexivity|discriminate|reflexivity..].
Defined.

Example calculateWinner_two_rows :
  calculateWinner two_rows_board = mkWinResult (Some "X") [0; 1; 2].
Proof. reflexivity. Qed.

Lemma no_triple_matches_falsy squares :
  no_triple_matches squares ↔ truthy (res_winner (calculateWinner squares)) = false.
Proof.
  split.
  - intros Hno. by rewrite calculateWinner_none.
  - intros Hf l m Hl Hm.
    destruct (scan_lines_first squares lines lines_triples)
      as [(pre & l' & m' & post & _ & (a & b & c & _ & Hm' & _) & _ & Hs)|[Hno _]].
    + unfold calculateWinner in Hf. rewrite Hs in Hf. simpl in Hf.
      apply negb_false_iff, String.eqb_eq in Hf. done.
    + by apply (Hno l m).
Qed.

(** ** The handlers *)

Lemma every_filled_Forall b : every_filled b = true ↔ Forall (λ c, c ≠ "") b.
Proof.
  unfold every_filled. rewrite forallb_forall, Forall_forall. split.
  - intros H c Hc%list_elem_of_In. apply String.eqb_neq, negb_true_iff. by apply H.
  - intros H c Hc%list_elem_of_In. apply negb_true_iff, String.eqb_neq. by apply H.
Qed.

Lemma every_filled_false b : every_filled b = false ↔ ∃ i, b !! i = Some "".
Proof.
  split.
  - intros Hf. destruct (decide (Exists (λ c, c = "") b)) as [He|Hn].
    + apply Exists_exists in He as (c & Hc & ->). by apply list_elem_of_lookup.
    + apply Forall_Exists_neg in Hn. apply every_filled_Forall in Hn. congruence.
  - intros (i & Hi). apply not_true_iff_false. intros Hall%every_filled_Forall.
    by apply (Forall_lookup_1 _ _ _ _ Hall Hi).
Qed.

Lemma click_ignored_false idx st :
  click_ignored idx st = false ↔
  board st !! idx = Some "" ∧ truthy (winner st) = false.
Proof.
  unfold click_ignored.
  by rewrite orb_false_iff, negb_false_iff, strict_eq_true.
Qed.

Lemma outcome_InProgress st :
  outcome st = InProgress ↔ truthy (winner st) = false ∧ isTie st = false.
Proof.
  unfold outcome. destruct (truthy (winner st)), (isTie st); split; try done; by intros [? ?].
Qed.

Lemma outcome_Tie st :
  outcome st = Tie ↔ truthy (winner st) = false ∧ isTie st = true.
Proof.
  unfold outcome. destruct (truthy (winner st)), (isTie st); split; try done; by intros [? ?].
Qed.

Lemma click_accepted idx st :
  board st !! idx = Some "" → outcome st = InProgress → click_ignored idx st = false.
Proof.
  intros Hc [Hw _]%outcome_InProgress. by apply click_ignored_false.
Qed.

(** An accepted click writes the mover's mark, negates [isXNext], notes
    the index, and leaves the outcome the fresh board evaluates to. *)
Lemma handleSquareClick_accepted idx st :
  click_ignored idx st = false →
  let st' := handleSquareClick idx st in
  board st' = <[idx := currentTurn st]> (board st) ∧
  isXNext st' = negb (isXNext st) ∧
  lastMove st' = Some idx ∧
  outcome st' = evaluate (board st').
Proof.
  intros Hg. unfold handleSquareClick, evaluate, outcome, currentTurn. rewrite Hg. simpl.
  set (nextBoard := <[idx := _]> (board st)).
  destruct (truthy (res_winner (calculateWinner nextBoard))) eqn:Hw; simpl.
  - by rewrite Hw.
  - destruct (every_filled nextBoard) eqn:Hf; simpl; by rewrite Hw, ?Hf.
Qed.

Lemma handleSquareClick_ignored idx st :
  click_ignored idx st = true → handleSquareClick idx st = st.
Proof. intros Hg. unfold handleSquareClick. by rewrite Hg. Qed.

(** ** The invariant holds in every reachable state *)

Lemma consistent_initialState : consistent initialState.
Proof.
  split; try reflexivity.
  apply Forall_replicate. by left.
Qed.

Lemma consistent_handleReset st : consistent (handleReset st).
Proof. apply consistent_initialState. Qed.

Lemma consistent_handleSquareClick idx st :
  consistent st → consistent (handleSquareClick idx st).
Proof.
  intros [Hlen Hcells Hwin Hline Htie]. unfold handleSquareClick.
  destruct (click_ignored idx st) eqn:Hg; [by split|].
  apply click_ignored_false in Hg as [_ Hnow].
  rewrite Hwin in Hnow. apply calculateWinner_falsy in Hnow.
  assert (is_cell (if isXNext st then "X" else "O")) as Hmark.
  { destruct (isXNext st); [right; by left|right; by right]. }
  simpl. set (nextBoard := <[idx := _]> (board st)).
  assert (length nextBoard = 9) as Hlen' by (unfold nextBoard; by rewrite length_insert).
  assert (Forall is_cell nextBoard) as Hcells' by (by apply Forall_insert).
  destruct (truthy (res_winner (calculateWinner nextBoard))) eqn:Hw.
  - split; simpl; [done|done|done|done|by rewrite Hw].
  - pose proof (calculateWinner_falsy _ Hw) as Hres.
    destruct (every_filled nextBoard) eqn:Hf.
    + split; simpl; [done|done|by rewrite Hres| |by rewrite Hw, Hf].
      by rewrite Hline, Hnow, Hres.
    + split; simpl; [done|done|by rewrite Hres|by rewrite Hres|by rewrite Hw, Hf].
Qed.

Lemma reachable_consistent st : reachable st → consistent st.
Proof.
  induction 1 as [|st [idx|] _ IH]; simpl.
  - apply consistent_initialState.
  - by apply consistent_handleSquareClick.
  - apply consistent_handleReset.
Qed.

Lemma reachable_run es : reachable (run es initialState).
Proof.
  unfold run. generalize reach_init. generalize initialState.
  induction es as [|e es IH]; intros st Hst; simpl; [done|].
  apply IH. by constructor.
Qed.

(** In a consistent state the winner is [null] or a non-empty mark, and
    a set tie flag means a full board without a winner. *)
Lemma consistent_winner st :
  consistent st →
  (winner st = None ∧ winningLine st = []) ∨
  (∃ m, winner st = Some m ∧ m ≠ "" ∧ winningLine st ≠ [] ∧ isTie st = false).
Proof.
  intros [_ _ Hwin Hline Htie]. rewrite Hwin, Hline, Htie.
  destruct (calculateWinner_shape (board st)) as [(m & l & Hm & -> & Hl) | ->]; simpl.
  - right. exists m. split_and!; try done.
    apply String.eqb_neq in Hm. by rewrite Hm.
  - by left.
Qed.

Lemma consistent_tie_full st :
  consistent st → isTie st = true →
  winner st = None ∧ length (board st) = 9 ∧ Forall (λ c, c ≠ "") (board st).
Proof.
  intros Hc Ht. destruct (consistent_winner st Hc) as [[Hw _]|(m & _ & _ & _ & Hf)]; [|congruence].
  destruct Hc as [Hlen _ _ _ Htie]. rewrite Ht in Htie. symmetry in Htie.
  apply andb_true_iff in Htie as [_ Hfull]. by apply every_filled_Forall in Hfull.
Qed.

Lemma full_board_ignores idx st :
  Forall (λ c, c ≠ "") (board st) → click_ignored idx st = true.
Proof.
  intros Hfull. unfold click_ignored. apply orb_true_iff. left.
  apply negb_true_iff, not_true_iff_false. intros Heq%strict_eq_true.
  by apply (Forall_lookup_1 _ _ _ _ Hfull Heq).
Qed.

(** ** The turn *)

(** [C2] As stated, the rule fails: after four accepted moves X completes
    the top row at index 2, the outcome becomes a win for X, and the turn
    has moved on to O instead of staying with X. *)
Lemma turn_kept_at_game_end_fails :
  ¬ turn_kept_at_game_end x_about_to_win 2.
Proof.
  intros H. destruct H as [_ Hkeep]; [reflexivity|reflexivity|].
  assert (outcome (handleSquareClick 2 x_about_to_win) ≠ InProgress) as Hend
    by (vm_compute; discriminate).
  specialize (Hkeep Hend). vm_compute in Hkeep. discriminate.
Qed.

Example x_about_to_win_reachable : reachable x_about_to_win.
Proof. apply reachable_run. Qed.

(** [C2, amended] Every accepted click (cell empty, game in progress
    before it) passes the turn to the other mark, whatever outcome the
    new board has: in progress, won or tied. *)
Theorem accepted_click_flips_turn st idx :
  board st !! idx = Some "" →
  outcome st = InProgress →
  isXNext (handleSquareClick idx st) = negb (isXNext st) ∧
  currentTurn (handleSquareClick idx st) = other_mark (currentTurn st).
Proof.
  intros Hc Ho.
  destruct (handleSquareClick_accepted idx st (click_accepted idx st Hc Ho))
    as (_ & Hx & _).
  split; [done|]. rewrite other_mark_currentTurn. unfold currentTurn. rewrite Hx.
  by destruct (isXNext st).
Qed.

Lemma accepted_click_flips_turn_witness :
  outcome (handleSquareClick 2 x_about_to_win) = Win "X" [0; 1; 2] ∧
  isXNext (handleSquareClick 2 x_about_to_win) = negb (isXNext x_about_to_win) ∧
  currentTurn (handleSquareClick 2 x_about_to_win)
  = other_mark (currentTurn x_about_to_win).
Proof.
  split; [reflexivity|].
  apply (accepted_click_flips_turn x_about_to_win 2); reflexivity.
Defined.

(** [C8] The game starts with X to move, and every accepted click that
    leaves the game in progress hands the turn to the opposite mark. *)
Theorem turn_alternates :
  currentTurn initialState = "X" ∧
  ∀ st idx,
    board st !! idx = Some "" →
    outcome st = InProgress →
    outcome (handleSquareClick idx st) = InProgress →
    currentTurn (handleSquareClick idx st) = other_mark (currentTurn st) ∧
    currentTurn (handleSquareClick idx st) ≠ currentTurn st.
Proof.
  split; [reflexivity|]. intros st idx Hc Ho _.
  destruct (handleSquareClick_accepted idx st (click_accepted idx st Hc Ho))
    as (_ & Hx & _).
  rewrite other_mark_currentTurn. unfold currentTurn. rewrite Hx.
  by destruct (isXNext st).
Qed.

Lemma turn_alternates_witness :
  currentTurn (handleSquareClick 0 initialState) = other_mark (currentTurn initialState) ∧
  currentTurn (handleSquareClick 0 initialState) ≠ currentTurn initialState.
Proof.
  apply (proj2 turn_alternates initialState 0); reflexivity.
Defined.

(** ** Outcomes *)

(** [C3] After an accepted click, when no winning triple matches on the
    new board: if every cell of it is filled the outcome is a tie, and if
    some cell of it is still empty the game stays in progress. *)
Theorem accepted_click_without_triple st idx :
  board st !! idx = Some "" →
  outcome st = InProgress →
  no_triple_matches (board (handleSquareClick idx st)) →
  (Forall (λ c, c ≠ "") (board (handleSquareClick idx st)) →
     outcome (handleSquareClick idx st) = Tie) ∧
  ((∃ i, board (handleSquareClick idx st) !! i = Some "") →
     outcome (handleSquareClick idx st) = InProgress).
Proof.
  intros Hc Ho Hno.
  destruct (handleSquareClick_accepted idx st (click_accepted idx st Hc Ho))
    as (_ & _ & _ & Hout).
  rewrite Hout. unfold evaluate. simpl.
  apply no_triple_matches_falsy in Hno. rewrite Hno. split.
  - intros Hfull%every_filled_Forall. by rewrite Hfull.
  - intros Hsome%every_filled_false. by rewrite Hsome.
Qed.

Lemma accepted_click_without_triple_witness :
  (Forall (λ c, c ≠ "") (board (handleSquareClick 7 last_cell_open)) →
     outcome (handleSquareClick 7 last_cell_open) = Tie) ∧
  ((∃ i, board (handleSquareClick 7 last_cell_open) !! i = Some "") →
     outcome (handleSquareClick 7 last_cell_open) = InProgress).
Proof.
  apply (accepted_click_without_triple last_cell_open 7);
    [reflexivity|reflexivity|].
  apply no_triple_matches_falsy. reflexivity.
Defined.

Example scenario_D_tie :
  board (handleSquareClick 7 last_cell_open)
  = ["X"; "O"; "X"; "X"; "O"; "X"; "O"; "X"; "O"]
  ∧ outcome (handleSquareClick 7 last_cell_open) = Tie.
Proof. split; reflexivity. Qed.

Example scenario_A_first_move :
  board (handleSquareClick 0 initialState) !! 0 = Some "X"
  ∧ currentTurn (handleSquareClick 0 initialState) = "O"
  ∧ outcome (handleSquareClick 0 initialState) = InProgress.
Proof. repeat split. Qed.

Example scenario_C_column :
  outcome (run [Click 0; Click 1; Click 3; Click 4; Click 6] initialState)
  = Win "X" [0; 3; 6].
Proof. reflexivity. Qed.

Example scenario_B_row :
  outcome (run [Click 0; Click 3; Click 1; Click 4; Click 2] initialState)
  = Win "X" [0; 1; 2].
Proof. reflexivity. Qed.

(** ** Ignored clicks *)

(** [C4] A click on a cell that already holds a mark changes nothing:
    the whole state, so the board, the turn, the winner, the winning
    line, the tie flag and the last move, is the one before the click. *)
Theorem click_on_occupied_cell st idx m :
  board st !! idx = Some m →
  m ≠ "" →
  handleSquareClick idx st = st.
Proof.
  intros Hc Hm. apply handleSquareClick_ignored.
  unfold click_ignored. apply orb_true_iff. left.
  apply negb_true_iff, not_true_iff_false. intros Heq%strict_eq_true. congruence.
Qed.

Lemma click_on_occupied_cell_witness :
  handleSquareClick 3 x_about_to_win = x_about_to_win.
Proof.
  apply (click_on_occupied_cell x_about_to_win 3 "O"); [reflexivity|discriminate].
Defined.

(** [C5] In a reachable state whose outcome is a win or a tie, a click
    on any index changes no component of the state. *)
Theorem click_after_game_end st idx :
  reachable st →
  outcome st ≠ InProgress →
  handleSquareClick idx st = st.
Proof.
  intros Hr Ho. apply handleSquareClick_ignored.
  destruct (truthy (winner st)) eqn:Hw.
  - unfold click_ignored. rewrite Hw. apply orb_true_r.
  - destruct (isTie st) eqn:Ht.
    + apply full_board_ignores.
      by apply (consistent_tie_full st (reachable_consistent st Hr) Ht).
    + destruct Ho. by apply outcome_InProgress.
Qed.

Lemma click_after_game_end_witness :
  handleSquareClick 8 (run [Click 0; Click 1; Click 3; Click 4; Click 6] initialState)
  = run [Click 0; Click 1; Click 3; Click 4; Click 6] initialState.
Proof.
  apply (click_after_game_end _ 8); [apply reachable_run|].
  vm_compute. discriminate.
Defined.

(** ** Reset *)

(** [C6] From every state, reset gives exactly the initial state: nine
    empty cells, X to move, no winner, no winning line, no tie, no last
    move. *)
Theorem handleReset_initial st :
  handleReset st = initialState ∧
  board (handleReset st) = [""; ""; ""; ""; ""; ""; ""; ""; ""] ∧
  currentTurn (handleReset st) = "X" ∧
  winner (handleReset st) = None ∧
  winningLine (handleReset st) = [] ∧
  isTie (handleReset st) = false ∧
  outcome (handleReset st) = InProgress ∧
  lastMove (handleReset st) = None.
Proof. repeat split. Qed.

(** ** Invariants of the reachable states *)

(** [C7] In every reachable state the stored winner and winning line are
    the ones [calculateWinner] returns on the stored board, the tie flag
    is set exactly when that result has no winner and the board is full,
    and so the stored outcome is the one the board evaluates to. *)
Theorem stored_outcome_is_fresh st :
  reachable st →
  winner st = res_winner (calculateWinner (board st)) ∧
  winningLine st = res_line (calculateWinner (board st)) ∧
  isTie st = negb (truthy (res_winner (calculateWinner (board st))))
             && every_filled (board st) ∧
  outcome st = evaluate (board st).
Proof.
  intros [_ _ Hwin Hline Htie]%reachable_consistent. split_and!; try done.
  unfold outcome, evaluate. simpl. rewrite <- Hwin, <- Hline.
  destruct (truthy (winner st)) eqn:Hw; [done|].
  rewrite Htie, <- Hwin, Hw. done.
Qed.

Lemma stored_outcome_is_fresh_witness :
  winner (handleSquareClick 7 last_cell_open)
  = res_winner (calculateWinner (board (handleSquareClick 7 last_cell_open))) ∧
  winningLine (handleSquareClick 7 last_cell_open)
  = res_line (calculateWinner (board (handleSquareClick 7 last_cell_open))) ∧
  isTie (handleSquareClick 7 last_cell_open)
  = negb (truthy (res_winner
       (calculateWinner (board (handleSquareClick 7 last_cell_open)))))
    && every_filled (board (handleSquareClick 7 last_cell_open)) ∧
  outcome (handleSquareClick 7 last_cell_open)
  = evaluate (board (handleSquareClick 7 last_cell_open)).
Proof.
  apply (stored_outcome_is_fresh (handleSquareClick 7 last_cell_open)).
  apply (reachable_run
    [Click 0; Click 1; Click 2; Click 4; Click 3; Click 6; Click 5; Click 8; Click 7]).
Defined.

(** [C9] In every reachable state whose outcome is a tie, the board has
    nine cells and none is empty; the winner is then null, so the click
    guard passes on its occupied-cell test alone, for every index, and
    the click changes nothing. *)
Theorem tie_has_full_board st :
  reachable st →
  outcome st = Tie →
  length (board st) = 9 ∧
  Forall (λ c, c ≠ "") (board st) ∧
  truthy (winner st) = false ∧
  ∀ idx,
    negb (strict_eq (board st !! idx) (Some "")) = true ∧
    handleSquareClick idx st = st.
Proof.
  intros Hr [Hw Ht]%outcome_Tie.
  destruct (consistent_tie_full st (reachable_consistent st Hr) Ht) as (_ & Hlen & Hfull).
  split_and!; try done. intros idx.
  pose proof (full_board_ignores idx st Hfull) as Hg. split.
  - unfold click_ignored in Hg. rewrite Hw in Hg. by rewrite orb_false_r in Hg.
  - by apply handleSquareClick_ignored.
Qed.

Lemma tie_has_full_board_witness :
  length (board (handleSquareClick 7 last_cell_open)) = 9 ∧
  Forall (λ c, c ≠ "") (board (handleSquareClick 7 last_cell_open)) ∧
  truthy (winner (handleSquareClick 7 last_cell_open)) = false ∧
  ∀ idx,
    negb (strict_eq (board (handleSquareClick 7 last_cell_open) !! idx) (Some "")) = true ∧
    handleSquareClick idx (handleSquareClick 7 last_cell_open)
    = handleSquareClick 7 last_cell_open.
Proof.
  apply (tie_has_full_board (handleSquareClick 7 last_cell_open)); [|reflexivity].
  apply (reachable_run
    [Click 0; Click 1; Click 2; Click 4; Click 3; Click 6; Click 5; Click 8; Click 7]).
Defined.

(** [C10] In every reachable state a winner and a set tie flag never
    occur together, the winner is null or a non-empty mark, the outcome
    is in progress, a win or a tie according to exactly one of the three
    remaining combinations of winner and tie flag, and a non-empty
    winning line comes with a winner. *)
Theorem win_and_tie_exclusive st :
  reachable st →
  ¬ (winner st ≠ None ∧ isTie st = true) ∧
  (winner st = None ∨ ∃ m, winner st = Some m ∧ m ≠ "") ∧
  (outcome st = InProgress ↔ winner st = None ∧ isTie st = false) ∧
  (outcome st = Tie ↔ winner st = None ∧ isTie st = true) ∧
  ((∃ m l, outcome st = Win m l) ↔ winner st ≠ None ∧ isTie st = false) ∧
  (winningLine st ≠ [] → winner st ≠ None).
Proof.
  intros Hc%reachable_consistent.
  destruct (consistent_winner st Hc) as [[Hw Hl]|(m & Hw & Hm & Hl & Ht)].
  - split_and!.
    + by intros [? _].
    + by left.
    + rewrite outcome_InProgress, Hw. simpl. split; [by intros [_ ?]|by intros [_ ?]].
    + rewrite outcome_Tie, Hw. simpl. split; [by intros [_ ?]|by intros [_ ?]].
    + split; [|by intros [? _]]. intros (m & l & Ho). unfold outcome in Ho.
      rewrite Hw in Ho. simpl in Ho. by destruct (isTie st).
    + by rewrite Hl.
  - assert (truthy (winner st) = true) as Htr by (apply truthy_true; eauto).
    split_and!.
    + intros [_ ?]. congruence.
    + right. eauto.
    + rewrite outcome_InProgress, Htr, Hw. split; by intros [? _].
    + rewrite outcome_Tie, Htr, Hw. split; by intros [? _].
    + split; [by rewrite Hw|]. intros _. exists m, (winningLine st).
      unfold outcome. by rewrite Htr, Hw.
    + by rewrite Hw.
Qed.

Lemma win_and_tie_exclusive_witness :
  let st := run [Click 0; Click 1; Click 3; Click 4; Click 6] initialState in
  ¬ (winner st ≠ None ∧ isTie st = true) ∧
  (winner st = None ∨ ∃ m, winner st = Some m ∧ m ≠ "") ∧
  (outcome st = InProgress ↔ winner st = None ∧ isTie st = false) ∧
  (outcome st = Tie ↔ winner st = None ∧ isTie st = true) ∧
  ((∃ m l, outcome st = Win m l) ↔ winner st ≠ None ∧ isTie st = false) ∧
  (winningLine st ≠ [] → winner st ≠ None).
Proof.
  intros st. apply (win_and_tie_exclusive st). apply reachable_run.
Defined.

(** ** More on calculateWinner *)

(** [X1] A winner that [calculateWinner] reports is backed by the board:
    the mark is a non-empty string, the line is one of the eight triples
    of the table, and the three cells of that line all hold the mark. *)
Theorem calculateWinner_sound squares m :
  res_winner (calculateWinner squares) = Some m →
  m ≠ "" ∧
  res_line (calculateWinner squares) ∈ lines ∧
  triple_matches squares (res_line (calculateWinner squares)) m.
Proof.
  unfold calculateWinner.
  destruct (scan_lines_first squares lines lines_triples)
    as [(pre & l & m' & post & Heq & Hm & _ & ->)|[_ ->]]; simpl; [|done].
  intros [= ->]. split_and!; [|rewrite Heq; apply elem_of_app; right; left|done].
  by destruct Hm as (a & b & c & _ & ? & _).
Qed.

Lemma calculateWinner_sound_witness :
  "X" ≠ "" ∧
  res_line (calculateWinner two_rows_board) ∈ lines ∧
  triple_matches two_rows_board (res_line (calculateWinner two_rows_board)) "X".
Proof. apply (calculateWinner_sound two_rows_board "X"). reflexivity. Defined.

(** [X2] [calculateWinner] returns the null result, no winner and an
    empty line, exactly on the boards where none of the eight triples
    holds three equal non-empty marks; boards with fewer than nine cells
    and the empty array are among them when no triple is complete. *)
Theorem calculateWinner_null_iff squares :
  calculateWinner squares = mkWinResult None [] ↔ no_triple_matches squares.
Proof.
  split; [|apply calculateWinner_none].
  intros Hnull. apply no_triple_matches_falsy. by rewrite Hnull.
Qed.

Example calculateWinner_empty_array : calculateWinner [] = mkWinResult None [].
Proof. reflexivity. Qed.

(** ** More on the click handler *)

Lemma count_mark_cons m c b :
  count_mark m (c :: b) = (if decide (c = m) then 1 else 0) + count_mark m b.
Proof. unfold count_mark. rewrite filter_cons. by destruct (decide (c = m)). Qed.

(** Overwriting one cell moves one unit between the counts of the old
    and of the new content. *)
Lemma count_mark_insert m b i old new :
  b !! i = Some old →
  count_mark m (<[i := new]> b) + (if decide (old = m) then 1 else 0)
  = count_mark m b + (if decide (new = m) then 1 else 0).
Proof.
  revert i. induction b as [|c b IH]; intros [|i] Hi; try done; simpl in *.
  - injection Hi as ->. rewrite !count_mark_cons. lia.
  - rewrite !count_mark_cons. specialize (IH i Hi). lia.
Qed.

Lemma handleSquareClick_board idx st :
  click_ignored idx st = false →
  board (handleSquareClick idx st) = <[idx := currentTurn st]> (board st).
Proof. intros Hg. by destruct (handleSquareClick_accepted idx st Hg) as (? & _). Qed.

(** [X3] A click never overwrites or erases a mark: a cell that holds a
    non-empty mark holds the same mark after any click, on any index and
    in any state. *)
Theorem click_keeps_marks st idx i m :
  board st !! i = Some m →
  m ≠ "" →
  board (handleSquareClick idx st) !! i = Some m.
Proof.
  intros Hi Hm. destruct (click_ignored idx st) eqn:Hg.
  - by rewrite handleSquareClick_ignored.
  - rewrite handleSquareClick_board by done.
    apply click_ignored_false in Hg as [Hidx _].
    rewrite list_lookup_insert_ne; [done|]. intros ->. congruence.
Qed.

Lemma click_keeps_marks_witness :
  board (handleSquareClick 2 x_about_to_win) !! 3 = Some "O".
Proof.
  apply (click_keeps_marks x_about_to_win 2 3 "O"); [reflexivity|discriminate].
Defined.

(** [X4] A click on [idx] leaves every other cell of the board as it
    was, and the board keeps its length. *)
Theorem click_touches_one_cell st idx i :
  i ≠ idx →
  board (handleSquareClick idx st) !! i = board st !! i ∧
  length (board (handleSquareClick idx st)) = length (board st).
Proof.
  intros Hne. destruct (click_ignored idx st) eqn:Hg.
  - by rewrite handleSquareClick_ignored.
  - rewrite handleSquareClick_board by done.
    by rewrite list_lookup_insert_ne, length_insert.
Qed.

Lemma click_touches_one_cell_witness :
  board (handleSquareClick 2 x_about_to_win) !! 5 = board x_about_to_win !! 5 ∧
  length (board (handleSquareClick 2 x_about_to_win)) = length (board x_about_to_win).
Proof. apply (click_touches_one_cell x_about_to_win 2 5). discriminate. Defined.

(** [X5] When the guard lets a click through (the cell is empty and no
    winner is stored), the clicked cell receives the mark of the player
    to move, the index becomes the last move, and the board has exactly
    one empty cell less. *)
Theorem accepted_click_places_mark st idx :
  board st !! idx = Some "" →
  truthy (winner st) = false →
  board (handleSquareClick idx st) !! idx = Some (currentTurn st) ∧
  lastMove (handleSquareClick idx st) = Some idx ∧
  count_mark "" (board (handleSquareClick idx st)) + 1 = count_mark "" (board st).
Proof.
  intros Hidx Hw.
  assert (click_ignored idx st = false) as Hg by (by apply click_ignored_false).
  destruct (handleSquareClick_accepted idx st Hg) as (Hb & _ & Hl & _).
  split_and!; [|done|].
  - rewrite Hb. apply list_lookup_insert_eq. by apply lookup_lt_Some in Hidx.
  - rewrite Hb. pose proof (count_mark_insert "" _ _ _ (currentTurn st) Hidx) as Hc.
    rewrite decide_True in Hc by done.
    rewrite decide_False in Hc; [lia|].
    unfold currentTurn. by destruct (isXNext st).
Qed.

Lemma accepted_click_places_mark_witness :
  board (handleSquareClick 2 x_about_to_win) !! 2 = Some (currentTurn x_about_to_win) ∧
  lastMove (handleSquareClick 2 x_about_to_win) = Some 2 ∧
  count_mark "" (board (handleSquareClick 2 x_about_to_win)) + 1
  = count_mark "" (board x_about_to_win).
Proof. apply (accepted_click_places_mark x_about_to_win 2); reflexivity. Defined.

(** [X6] A click on an index past the end of the board is ignored: the
    cell reads [undefined], which is not the empty string, so the state
    is returned as it is and the array is never extended. *)
Theorem click_out_of_range st (idx : nat) :
  (length (board st) ≤ idx)%nat →
  handleSquareClick idx st = st.
Proof.
  intros Hlen%lookup_ge_None_2. apply handleSquareClick_ignored.
  unfold click_ignored. by rewrite Hlen.
Qed.

Lemma click_out_of_range_witness :
  handleSquareClick 9 x_about_to_win = x_about_to_win.
Proof. apply (click_out_of_range x_about_to_win 9). vm_compute. lia. Defined.

(** ** Histories *)

Lemma run_app es es' st : run (es ++ es') st = run es' (run es st).
Proof. unfold run. apply fold_left_app. Qed.

(** [X7] A reset forgets everything before it: whatever the events
    before the reset and the state they started from, the events after
    it run as from the initial state. *)
Theorem run_after_reset es es' st :
  run (es ++ Reset :: es') st = run es' initialState.
Proof. by rewrite run_app. Qed.

(** ** Turn, last move and complete lines in the reachable states *)

Lemma consistent_no_triple st :
  consistent st → truthy (winner st) = false → no_triple_matches (board st).
Proof.
  intros [_ _ Hwin _ _] Hw. apply no_triple_matches_falsy. by rewrite <- Hwin.
Qed.

Lemma empty_board_no_triple l m : ¬ triple_matches (replicate 9 "") l m.
Proof.
  intros (a & b & c & _ & Hm & Ha & _).
  apply lookup_replicate in Ha as [-> _]. done.
Qed.

Lemma played_initialState : played initialState.
Proof.
  split; simpl; try done.
  intros l m _ Hm. by apply empty_board_no_triple in Hm.
Qed.

(** A triple that matches after one cell was written, on a board where
    no triple matched, goes through the written cell. *)
Lemma new_triple_through_move b idx mark l m :
  (∀ m', ¬ triple_matches b l m') →
  triple_matches (<[idx := mark]> b) l m →
  idx ∈ l.
Proof.
  intros Hno (a & b' & c & -> & Hm & Ha & Hb & Hc).
  destruct (decide (idx ∈ [a; b'; c])) as [|Hout]; [done|]. exfalso.
  apply (Hno m). exists a, b', c.
  rewrite !elem_of_cons, elem_of_nil in Hout.
  rewrite list_lookup_insert_ne in Ha by (intros ->; tauto).
  rewrite list_lookup_insert_ne in Hb by (intros ->; tauto).
  rewrite list_lookup_insert_ne in Hc by (intros ->; tauto).
  done.
Qed.

Lemma played_handleSquareClick idx st :
  consistent st → played st → played (handleSquareClick idx st).
Proof.
  intros Hcons [Hcount Hnone Hsome Htri].
  destruct (click_ignored idx st) eqn:Hg.
  { rewrite handleSquareClick_ignored by done. by split. }
  destruct (handleSquareClick_accepted idx st Hg) as (Hb & Hx & Hl & _).
  apply click_ignored_false in Hg as [Hidx Hw].
  split; rewrite ?Hb, ?Hx, ?Hl.
  - pose proof (count_mark_insert "X" _ _ _ (currentTurn st) Hidx) as HX.
    pose proof (count_mark_insert "O" _ _ _ (currentTurn st) Hidx) as HO.
    rewrite decide_False in HX by done. rewrite decide_False in HO by done.
    unfold currentTurn in *. destruct (isXNext st); simpl in *; lia.
  - done.
  - intros i [= <-]. rewrite list_lookup_insert_eq by (by apply lookup_lt_Some in Hidx).
    unfold currentTurn. by destruct (isXNext st).
  - intros l m Hl' Hm. exists idx. split; [done|].
    eapply new_triple_through_move; [|done].
    intros m'. by apply (consistent_no_triple st Hcons Hw).
Qed.

Lemma reachable_played st : reachable st → played st.
Proof.
  induction 1 as [|st [idx|] Hr IH]; simpl.
  - apply played_initialState.
  - apply played_handleSquareClick; [by apply reachable_consistent|done].
  - apply played_initialState.
Qed.

(** A complete line of a played board goes through the last move and
    carries the mark of the player who is not to move. *)
Lemma played_line_mark st l m :
  played st → l ∈ lines → triple_matches (board st) l m →
  ∃ i, lastMove st = Some i ∧ i ∈ l ∧ m = other_mark (currentTurn st).
Proof.
  intros [_ _ Hsome Htri] Hl Hm.
  destruct (Htri l m Hl Hm) as (i & Hi & Hil). exists i. split_and!; [done|done|].
  specialize (Hsome i Hi). rewrite other_mark_currentTurn.
  destruct Hm as (a & b & c & -> & _ & Ha & Hb & Hc).
  rewrite !elem_of_cons, elem_of_nil in Hil.
  destruct Hil as [-> | [-> | [-> | []]]]; congruence.
Qed.

Lemma calculateWinner_line squares :
  calculateWinner squares = mkWinResult None [] ∨
  ∃ m, res_winner (calculateWinner squares) = Some m ∧
       res_line (calculateWinner squares) ∈ lines ∧
       triple_matches squares (res_line (calculateWinner squares)) m.
Proof.
  unfold calculateWinner.
  destruct (scan_lines_first squares lines lines_triples)
    as [(pre & l & m & post & Heq & Hm & _ & ->)|[_ ->]]; [right|by left].
  exists m. simpl. split_and!; [done| |done].
  rewrite Heq. apply elem_of_app. right. left.
Qed.

Lemma count_mark_cells b :
  Forall is_cell b →
  count_mark "X" b + count_mark "O" b + count_mark "" b = length b.
Proof.
  induction 1 as [|c b Hc _ IH]; [done|].
  rewrite !count_mark_cons. simpl.
  destruct Hc as [-> | [-> | ->]]; simpl; lia.
Qed.

Lemma count_mark_full b : Forall (λ c, c ≠ "") b → count_mark "" b = 0.
Proof.
  induction 1 as [|c b Hc _ IH]; [done|].
  rewrite count_mark_cons, IH. by rewrite decide_False.
Qed.

(** [X8] In every reachable state the marks on the board tell whose turn
    it is: there are as many X as O when X is to move, and one X more
    when O is to move. *)
Theorem turn_matches_counts st :
  reachable st →
  count_mark "X" (board st)
  = count_mark "O" (board st) + (if isXNext st then 0 else 1) ∧
  (currentTurn st = "X" ↔ count_mark "X" (board st) = count_mark "O" (board st)).
Proof.
  intros [Hcount _ _ _]%reachable_played. split; [done|].
  unfold currentTurn. destruct (isXNext st); split; try done; lia.
Qed.

Lemma turn_matches_counts_witness :
  count_mark "X" (board last_cell_open)
  = count_mark "O" (board last_cell_open) + (if isXNext last_cell_open then 0 else 1) ∧
  (currentTurn last_cell_open = "X"
   ↔ count_mark "X" (board last_cell_open) = count_mark "O" (board last_cell_open)).
Proof. apply (turn_matches_counts last_cell_open). apply reachable_run. Defined.

(** [X9] In every reachable state the last move is [null] exactly when
    the board is empty; otherwise it is an index below 9 whose cell
    holds the mark of the player who is not to move, the one who made
    that move. *)
Theorem last_move_cell st :
  reachable st →
  (lastMove st = None ↔ board st = replicate 9 "") ∧
  ∀ i, lastMove st = Some i →
       i < 9 ∧ board st !! i = Some (other_mark (currentTurn st)).
Proof.
  intros Hr. pose proof (reachable_consistent st Hr) as [Hlen _ _ _ _].
  destruct (reachable_played st Hr) as [_ Hnone Hsome _].
  assert (∀ i, lastMove st = Some i →
               i < 9 ∧ board st !! i = Some (other_mark (currentTurn st))) as Hcell.
  { intros i Hi. specialize (Hsome i Hi). rewrite other_mark_currentTurn.
    split; [|done]. apply lookup_lt_Some in Hsome. lia. }
  split; [|done]. split; [done|].
  intros Hempty. destruct (lastMove st) as [i|] eqn:Hi; [|done].
  destruct (Hcell i eq_refl) as [_ Hb]. rewrite Hempty in Hb.
  apply lookup_replicate in Hb as [Hb _]. rewrite other_mark_currentTurn in Hb.
  by destruct (isXNext st).
Qed.

Lemma last_move_cell_witness :
  (lastMove x_about_to_win = None ↔ board x_about_to_win = replicate 9 "") ∧
  ∀ i, lastMove x_about_to_win = Some i →
       i < 9 ∧ board x_about_to_win !! i = Some (other_mark (currentTurn x_about_to_win)).
Proof. apply (last_move_cell x_about_to_win). apply reachable_run. Defined.

(** [X10] On a reachable board every complete line belongs to the stored
    winner and goes through the last move: no reachable board holds a
    complete line of X and one of O, and a line is only ever completed
    by the move just made. *)
Theorem complete_line_is_winners st l m :
  reachable st →
  l ∈ lines →
  triple_matches (board st) l m →
  winner st = Some m ∧ ∃ i, lastMove st = Some i ∧ i ∈ l.
Proof.
  intros Hr Hl Hm. pose proof (reachable_played st Hr) as Hp.
  destruct (played_line_mark st l m Hp Hl Hm) as (i & Hi & Hil & ->).
  split; [|eauto].
  destruct (reachable_consistent st Hr) as [_ _ -> _ _].
  destruct (calculateWinner_line (board st)) as [Hnull|(m' & Hw & Hl' & Hm')].
  - assert (no_triple_matches (board st)) as Hno
      by (apply no_triple_matches_falsy; by rewrite Hnull).
    by destruct (Hno l _ Hl Hm).
  - rewrite Hw. f_equal.
    by destruct (played_line_mark st _ m' Hp Hl' Hm') as (_ & _ & _ & ->).
Qed.

Lemma complete_line_is_winners_witness :
  winner x_has_won = Some "X" ∧ ∃ i, lastMove x_has_won = Some i ∧ i ∈ [0; 3; 6].
Proof.
  apply (complete_line_is_winners x_has_won [0; 3; 6] "X").
  - apply reachable_run.
  - unfold lines. do 3 apply list_elem_of_further. apply list_elem_of_here.
  - exists 0, 3, 6. split_and!; [reflexivity|discriminate|reflexivity..].
Defined.

(** [X11] In every reachable state with a winner, the winner is X or O
    and is the player who made the last move (so never the one the turn
    cell names), the stored line is one of the eight triples, all its
    cells hold the winner's mark, and the last move lies on it. *)
Theorem winner_made_last_move st m :
  reachable st →
  winner st = Some m →
  (m = "X" ∨ m = "O") ∧
  m = other_mark (currentTurn st) ∧
  winningLine st ∈ lines ∧
  (∀ j, j ∈ winningLine st → board st !! j = Some m) ∧
  ∃ i, lastMove st = Some i ∧ i ∈ winningLine st.
Proof.
  intros Hr Hw. pose proof (reachable_played st Hr) as Hp.
  destruct (reachable_consistent st Hr) as [_ _ Hwin Hline _].
  rewrite Hline. rewrite Hwin in Hw.
  destruct (calculateWinner_line (board st)) as [Hnull|(m' & Hw' & Hl & Hm)].
  { rewrite Hnull in Hw. done. }
  assert (m' = m) as -> by congruence.
  destruct (played_line_mark st _ m Hp Hl Hm) as (i & Hi & Hil & Hmark).
  split_and!; [|done|done| |eauto].
  - rewrite Hmark, other_mark_currentTurn. destruct (isXNext st); [by right|by left].
  - destruct Hm as (a & b & c & -> & _ & Ha & Hb & Hc).
    intros j Hj. rewrite !elem_of_cons, elem_of_nil in Hj.
    destruct Hj as [-> | [-> | [-> | []]]]; done.
Qed.

Lemma winner_made_last_move_witness :
  ("X" = "X" ∨ "X" = "O") ∧
  "X" = other_mark (currentTurn x_has_won) ∧
  winningLine x_has_won ∈ lines ∧
  (∀ j, j ∈ winningLine x_has_won → board x_has_won !! j = Some "X") ∧
  ∃ i, lastMove x_has_won = Some i ∧ i ∈ winningLine x_has_won.
Proof.
  apply (winner_made_last_move x_has_won "X"); [apply reachable_run|reflexivity].
Defined.

(** [X12] In every reachable state the squares that [renderBoard]
    highlights are, in board order, exactly the stored winning line:
    none while there is no winner, three once there is one, and each
    highlighted square shows the winner's mark. *)
Theorem highlighted_squares st :
  reachable st →
  List.filter (isWinningSquare st) (seq 0 9) = winningLine st ∧
  (truthy (winner st) = false → ∀ idx, isWinningSquare st idx = false) ∧
  ∀ idx, isWinningSquare st idx = true →
         truthy (winner st) = true ∧ board st !! idx = winner st.
Proof.
  intros Hr. destruct (reachable_consistent st Hr) as [_ _ Hwin Hline _].
  change (isWinningSquare st) with (λ idx, existsb (Nat.eqb idx) (winningLine st)).
  simpl. rewrite Hwin, Hline.
  destruct (calculateWinner_line (board st)) as [-> |(m & Hw & Hl & Hm)].
  { simpl. split_and!; [reflexivity|done|done]. }
  rewrite Hw. destruct Hm as (a & b & c & Heq & Hne & Ha & Hb & Hc).
  split_and!.
  - unfold lines in Hl. rewrite !elem_of_cons, elem_of_nil in Hl.
    destruct Hl as [-> | [-> | [-> | [-> | [-> | [-> | [-> | [-> | []]]]]]]]];
      reflexivity.
  - simpl. intros Hf%negb_false_iff%String.eqb_eq. done.
  - intros idx Hidx. split; [by apply truthy_true; eauto|].
    rewrite Heq in Hidx. simpl in Hidx. rewrite orb_false_r in Hidx.
    apply orb_true_iff in Hidx as [Hi%Nat.eqb_eq|Hidx]; [by subst|].
    apply orb_true_iff in Hidx as [Hi%Nat.eqb_eq|Hi%Nat.eqb_eq]; by subst.
Qed.

Lemma highlighted_squares_witness :
  List.filter (isWinningSquare x_has_won) (seq 0 9) = winningLine x_has_won ∧
  (truthy (winner x_has_won) = false → ∀ idx, isWinningSquare x_has_won idx = false) ∧
  ∀ idx, isWinningSquare x_has_won idx = true →
         truthy (winner x_has_won) = true ∧ board x_has_won !! idx = winner x_has_won.
Proof. apply (highlighted_squares x_has_won). apply reachable_run. Defined.

(** [X13] A reachable tie always shows five X and four O, with the turn
    cell naming O. *)
Theorem tie_has_five_X_four_O st :
  reachable st →
  outcome st = Tie →
  count_mark "X" (board st) = 5 ∧
  count_mark "O" (board st) = 4 ∧
  currentTurn st = "O".
Proof.
  intros Hr [_ Ht]%outcome_Tie.
  pose proof (reachable_consistent st Hr) as Hc.
  destruct (consistent_tie_full st Hc Ht) as (_ & Hlen & Hfull).
  destruct Hc as [_ Hcells _ _ _].
  pose proof (count_mark_cells _ Hcells) as Hsum.
  rewrite (count_mark_full _ Hfull), Hlen in Hsum.
  destruct (reachable_played st Hr) as [Hcount _ _ _].
  unfold currentTurn. destruct (isXNext st); [lia|]. split_and!; [lia|lia|done].
Qed.

Lemma tie_has_five_X_four_O_witness :
  count_mark "X" (board drawn_game) = 5 ∧
  count_mark "O" (board drawn_game) = 4 ∧
  currentTurn drawn_game = "O".
Proof.
  apply (tie_has_five_X_four_O drawn_game); [apply reachable_run|reflexivity].
Defined.

(** [X14] A reachable game that is in progress can always go on: some
    index below 9 has an empty cell, and a click on it passes the guard.
    The other way round, a reachable full board is never in progress. *)
Theorem in_progress_has_move st :
  reachable st →
  outcome st = InProgress →
  ¬ Forall (λ c, c ≠ "") (board st) ∧
  ∃ idx, idx < 9 ∧ board st !! idx = Some "" ∧ click_ignored idx st = false.
Proof.
  intros Hr [Hw Ht]%outcome_InProgress.
  destruct (reachable_consistent st Hr) as [Hlen _ Hwin _ Htie].
  rewrite <- Hwin, Hw, Ht in Htie. simpl in Htie. symmetry in Htie.
  split.
  - intros Hfull%every_filled_Forall. congruence.
  - apply every_filled_false in Htie as (idx & Hidx). exists idx.
    split_and!; [|done|by apply click_ignored_false].
    apply lookup_lt_Some in Hidx. lia.
Qed.

Lemma in_progress_has_move_witness :
  ¬ Forall (λ c, c ≠ "") (board last_cell_open) ∧
  ∃ idx, idx < 9 ∧ board last_cell_open !! idx = Some ""
         ∧ click_ignored idx last_cell_open = false.
Proof.
  apply (in_progress_has_move last_cell_open); [apply reachable_run|reflexivity].
Defined.

(** [X15] In every reachable state the status line is determined by the
    board alone: it names the winner when the board evaluates to a win,
    says tie when it evaluates to a tie, and otherwise names X as next
    when the board holds as many X as O, and O when it does not. *)
Theorem statusMsg_from_board st :
  reachable st →
  statusMsg st =
    match evaluate (board st) with
    | Win m _ => "Winner: " +:+ m
    | Tie => "It's a tie!"
    | InProgress =>
        "Next: " +:+ (if Nat.eqb (count_mark "X" (board st))
                                    (count_mark "O" (board st))
                      then "X" else "O")
    end.
Proof.
  intros Hr. destruct (reachable_consistent st Hr) as [_ _ Hwin _ Htie].
  destruct (reachable_played st Hr) as [Hcount _ _ _].
  unfold statusMsg, evaluate. simpl. rewrite <- Hwin.
  destruct (truthy (winner st)) eqn:Hw; [done|].
  rewrite <- Hwin, Hw in Htie. simpl in Htie. rewrite <- Htie.
  destruct (isTie st); [done|]. f_equal.
  destruct (isXNext st).
  - rewrite Hcount, Nat.add_0_r, Nat.eqb_refl. done.
  - assert (Nat.eqb (count_mark "X" (board st)) (count_mark "O" (board st)) = false)
      as ->; [|done].
    apply Nat.eqb_neq. lia.
Qed.

Lemma statusMsg_from_board_witness :
  statusMsg last_cell_open =
    match evaluate (board last_cell_open) with
    | Win m _ => "Winner: " +:+ m
    | Tie => "It's a tie!"
    | InProgress =>
        "Next: " +:+ (if Nat.eqb (count_mark "X" (board last_cell_open))
                                    (count_mark "O" (board last_cell_open))
                      then "X" else "O")
    end.
Proof. apply (statusMsg_from_board last_cell_open). apply reachable_run. Defined.

Example statusMsg_values :
  statusMsg initialState = "Next: X" ∧
  statusMsg x_has_won = "Winner: X" ∧
  statusMsg drawn_game = "It's a tie!".
Proof. repeat split. Qed.

(** ** The rendered board *)

Lemma board_squares_rows st :
  board_squares st =
  [ renderSquare st 0 0; renderSquare st 0 1; renderSquare st 0 2;
    renderSquare st 1 0; renderSquare st 1 1; renderSquare st 1 2;
    renderSquare st 2 0; renderSquare st 2 1; renderSquare st 2 2 ].
Proof. reflexivity. Qed.

Lemma board_squares_elem st sq :
  sq ∈ board_squares st → ∃ r c, r < 3 ∧ c < 3 ∧ sq = renderSquare st r c.
Proof.
  rewrite board_squares_rows, !elem_of_cons, elem_of_nil.
  intros [-> | [-> | [-> | [-> | [-> | [-> | [-> | [-> | [-> | []]]]]]]]]];
    eexists _, _; (split_and!; [| |reflexivity]); lia.
Qed.

(** In a reachable state the three tests behind [disabled] and the two
    of the click guard agree on every index of the board. *)
Lemma disabled_test_is_guard st idx :
  reachable st → idx < 9 →
  truthy (board st !! idx) || truthy (winner st) || isTie st = click_ignored idx st.
Proof.
  intros Hr Hidx. pose proof (reachable_consistent st Hr) as Hc.
  pose proof (inv_length st Hc) as Hlen. unfold click_ignored.
  destruct (lookup_lt_is_Some_2 (board st) idx) as [s Hs]; [lia|].
  rewrite Hs. simpl. destruct (isTie st) eqn:Ht; [|by rewrite orb_false_r].
  destruct (consistent_tie_full st Hc Ht) as (_ & _ & Hfull).
  pose proof (Forall_lookup_1 _ _ _ _ Hfull Hs) as Hne.
  apply String.eqb_neq in Hne. by rewrite Hne.
Qed.

Lemma handleSquareClick_cell idx st :
  click_ignored idx st = false →
  board (handleSquareClick idx st) !! idx = Some (currentTurn st).
Proof.
  intros Hg. rewrite handleSquareClick_board by done.
  apply click_ignored_false in Hg as [Hidx _].
  apply list_lookup_insert_eq. by apply lookup_lt_Some in Hidx.
Qed.

(** [X16] [renderBoard] gives three rows with keys 0, 1, 2 of three
    buttons each; in document order the nine buttons carry the keys 0 to
    8, the button with key k sends the click on index k, and its text is
    the content of cell k. *)
Theorem renderBoard_layout st :
  map row_key (renderBoard st) = [0; 1; 2] ∧
  Forall (λ row, length (row_cells row) = 3) (renderBoard st) ∧
  map sq_key (board_squares st) = seq 0 9 ∧
  map sq_onClick (board_squares st) = map Click (seq 0 9) ∧
  map sq_text (board_squares st) = map (λ idx, board st !! idx) (seq 0 9).
Proof.
  split_and!; try reflexivity. unfold renderBoard. simpl. by repeat constructor.
Qed.

(** [X17] In every reachable state a button of the board is disabled
    exactly when the click it sends would be ignored by the handler: the
    board never offers a click that does nothing and never blocks one
    that would be accepted. *)
Theorem disabled_iff_click_ignored st sq :
  reachable st →
  sq ∈ board_squares st →
  sq_onClick sq = Click (sq_key sq) ∧
  sq_disabled sq = click_ignored (sq_key sq) st ∧
  (sq_disabled sq = true → step st (sq_onClick sq) = st).
Proof.
  intros Hr (r & c & Hrow & Hcol & ->)%board_squares_elem. simpl.
  assert (r * 3 + c < 9) as Hidx by lia.
  rewrite (disabled_test_is_guard st _ Hr Hidx).
  split_and!; [done|done|]. apply handleSquareClick_ignored.
Qed.

Lemma disabled_iff_click_ignored_witness :
  sq_onClick (renderSquare x_about_to_win 0 2)
  = Click (sq_key (renderSquare x_about_to_win 0 2)) ∧
  sq_disabled (renderSquare x_about_to_win 0 2)
  = click_ignored (sq_key (renderSquare x_about_to_win 0 2)) x_about_to_win ∧
  (sq_disabled (renderSquare x_about_to_win 0 2) = true →
   step x_about_to_win (sq_onClick (renderSquare x_about_to_win 0 2)) = x_about_to_win).
Proof.
  apply (disabled_iff_click_ignored x_about_to_win (renderSquare x_about_to_win 0 2)).
  - apply reachable_run.
  - rewrite board_squares_rows. do 2 apply list_elem_of_further. apply list_elem_of_here.
Defined.

(** [X18] In every reachable state the label of an enabled button names
    the mark its click will place: it reads "Place m in cell r+1,c+1"
    with m the player to move and nothing after the coordinates, and the
    click writes that m into the button's cell. *)
Theorem enabled_button_label st r c :
  reachable st →
  r < 3 →
  c < 3 →
  sq_disabled (renderSquare st r c) = false →
  sq_ariaLabel (renderSquare st r c)
  = "Place " +:+ currentTurn st +:+ " in cell " +:+ pretty (r + 1)
             +:+ "," +:+ pretty (c + 1) ∧
  board (handleSquareClick (r * 3 + c) st) !! (r * 3 + c) = Some (currentTurn st).
Proof.
  intros Hr Hrow Hcol Hen. split.
  - simpl in *. apply orb_false_iff in Hen as [[Hcell Hw]%orb_false_iff Ht].
    rewrite Hcell, Hw, Ht. simpl. rewrite !andb_true_r. unfold currentTurn.
    destruct r as [|[|[|r]]]; [| | |lia]; destruct c as [|[|[|c]]]; try lia;
      by destruct (isXNext st).
  - apply handleSquareClick_cell. simpl in Hen.
    rewrite disabled_test_is_guard in Hen by (done || lia). done.
Qed.

Lemma enabled_button_label_witness :
  sq_ariaLabel (renderSquare x_about_to_win 0 2)
  = "Place " +:+ currentTurn x_about_to_win +:+ " in cell " +:+ pretty (0 + 1)
             +:+ "," +:+ pretty (2 + 1) ∧
  board (handleSquareClick (0 * 3 + 2) x_about_to_win) !! (0 * 3 + 2)
  = Some (currentTurn x_about_to_win).
Proof.
  apply (enabled_button_label x_about_to_win 0 2);
    [apply reachable_run|lia|lia|reflexivity].
Defined.

Example label_of_enabled_button :
  sq_ariaLabel (renderSquare x_about_to_win 0 2) = "Place X in cell 1,3".
Proof. reflexivity. Qed.

Example label_of_occupied_button :
  sq_ariaLabel (renderSquare x_about_to_win 1 0)
  = "Place X in cell 2,1: already occupied by O".
Proof. reflexivity. Qed.

(** ** The theme *)

Lemma toggleTheme_twice t :
  t = "light" ∨ t = "dark" → toggleTheme (toggleTheme t) = t.
Proof. by intros [-> | ->]. Qed.

Lemma toggleTheme_range t : toggleTheme t = "light" ∨ toggleTheme t = "dark".
Proof. unfold toggleTheme. destruct (String.eqb t "light"); [by right|by left]. Qed.

(** [X19] In every state the mounted component can reach, the theme is
    light or dark, the [data-theme] attribute of the document holds the
    current theme, and the game cells form a reachable game state. *)
Theorem theme_attribute_in_sync s :
  app_reachable s →
  (theme s = "light" ∨ theme s = "dark") ∧
  dataTheme s = Some (theme s) ∧
  reachable (game s).
Proof.
  induction 1 as [|s [ge|] _ (Hdom & Hattr & Hgame)]; simpl.
  - split_and!; [by left|done|constructor].
  - unfold themeEffect. rewrite String.eqb_refl. split_and!; [done|done|by constructor].
  - split_and!; [apply toggleTheme_range| |done].
    unfold themeEffect, toggleTheme.
    destruct Hdom as [-> | ->]; reflexivity.
Qed.

Lemma app_reachable_run es : app_reachable (app_run es initialApp).
Proof.
  unfold app_run. generalize app_reach_init. generalize initialApp.
  induction es as [|e es IH]; intros s Hs; simpl; [done|].
  apply IH. by constructor.
Qed.

Lemma theme_attribute_in_sync_witness :
  (theme (app_run [ToggleTheme; GameEvent (Click 4)] initialApp) = "light" ∨
   theme (app_run [ToggleTheme; GameEvent (Click 4)] initialApp) = "dark") ∧
  dataTheme (app_run [ToggleTheme; GameEvent (Click 4)] initialApp)
  = Some (theme (app_run [ToggleTheme; GameEvent (Click 4)] initialApp)) ∧
  reachable (game (app_run [ToggleTheme; GameEvent (Click 4)] initialApp)).
Proof.
  apply (theme_attribute_in_sync (app_run [ToggleTheme; GameEvent (Click 4)] initialApp)).
  apply app_reachable_run.
Defined.

Lemma app_run_from es s :
  theme s = "light" ∨ theme s = "dark" →
  game (app_run es s) = run (game_events es) (game s) ∧
  theme (app_run es s)
  = (if Nat.even (toggles es) then theme s else toggleTheme (theme s)).
Proof.
  revert s. induction es as [|[ge|] es IH]; intros s Hdom; [done| |].
  - destruct (IH (app_step s (GameEvent ge)) Hdom) as [Hg Ht]. by split.
  - destruct (IH (app_step s ToggleTheme) (toggleTheme_range _)) as [Hg Ht].
    split; [done|]. change (app_run (ToggleTheme :: es) s)
      with (app_run es (app_step s ToggleTheme)).
    rewrite Ht. simpl toggles. rewrite Nat.even_succ, <- Nat.negb_even.
    destruct (Nat.even (toggles es)); simpl; [done|by apply toggleTheme_twice].
Qed.

(** [X20] Game and theme do not interfere: after any history of clicks,
    resets and theme toggles, the game cells are what the clicks and
    resets alone give from the initial state, and the theme is light
    after an even number of toggles and dark after an odd one. *)
Theorem game_and_theme_independent es :
  game (app_run es initialApp) = run (game_events es) initialState ∧
  theme (app_run es initialApp)
  = (if Nat.even (toggles es) then "light" else "dark").
Proof. apply (app_run_from es initialApp). by left. Qed.
